(** * PSU_Bot: the fuzzy question matcher of [main.py]

    A shallow embedding of the matching core of [main.py] (the tokenizer
    [split], the word test built on [Levenshtein.ratio], the scorer
    [get_question_matches], [InputResponse.from_request]) and of the corpus
    lookup [get_answer], followed by the properties the specification states
    about them; then of the presentation ([normalize],
    [QuestionResponse.from_request]) and of the dispatch
    ([get_response_object]), with further properties read off the code.

    Conventions of the embedding.
    - A Python [str] is a sequence of code points.  Code points are modelled
      by [ascii], read as the Latin-1 range U+0000..U+00FF; on that range the
      tables of [str.lower], [str.isdecimal], [str.isalpha] and of the
      whitespace recognised by [str.split()] are written out in full.
    - [async]/[await] only sequence the calls; the functions are modelled
      as the pure functions they compute.
    - The SQLite table [questions] is a list of rows, in table order.
    - [Levenshtein.ratio] computes in binary64 floats.  The model computes
      the similarity exactly, as a rational, and compares it with the exact
      value of the float [0.8] of [SCORE_CUTOFF], which is not 4/5 but
      3602879701896397 / 2^52, just above it: a similarity of exactly 4/5
      does not reach the cutoff, in the model as in the program. *)

From Stdlib Require Import Strings.Ascii Strings.String.
From Stdlib Require Import Bool Arith NArith ZArith QArith Lia.
From Stdlib Require Import Sorting.Permutation Sorting.Sorted.
From Stdlib Require Import Lists.List.
Import ListNotations.

Local Open Scope nat_scope.
Local Open Scope list_scope.

(** ** Python strings *)

Definition str : Type := list ascii.

(** A string literal of the source. *)
Definition lit (s : string) : str := list_ascii_of_string s.

Definition ord (c : ascii) : N := N_of_ascii c.
Definition chr (n : N) : ascii := ascii_of_N n.

Definition in_range (lo hi : N) (c : ascii) : bool :=
  ((lo <=? ord c) && (ord c <=? hi))%N.

(** [string.punctuation]: the 32 ASCII punctuation characters, in the order
    of the standard library constant. *)
Definition punctuation : str :=
  lit "!" ++ [chr 34] ++ lit "#$%&'()*+,-./:;<=>?@[\]^_`{|}~".

(** [s.replace(char, "")] for a one-character [char]: every occurrence of
    [char] is deleted. *)
Definition replace (char : ascii) (s : str) : str :=
  filter (fun c => negb (Ascii.eqb c char)) s.

(** [str.lower] on Latin-1: A-Z and the accented capitals U+00C0..U+00DE
    (U+00D7, the multiplication sign, apart) move up by 32.  On this range
    the lowercase form of a string is that of its characters; beyond it
    [str.lower] also looks at the neighbours of a capital sigma and leaves
    some capitals as they are.  The properties stated below are those that
    do not depend on the difference. *)
Definition lower_char (c : ascii) : ascii :=
  if in_range 65 90 c then chr (ord c + 32)
  else if in_range 192 222 c && negb (ord c =? 215)%N then chr (ord c + 32)
  else c.

Definition lower (s : str) : str := map lower_char s.

(** The whitespace of [str.split()]: TAB..CR, FS..US, space, NEL, NBSP. *)
Definition isspace (c : ascii) : bool :=
  in_range 9 13 c || in_range 28 32 c || (ord c =? 133)%N || (ord c =? 160)%N.

(** Characters of category Nd: on Latin-1, the digits 0-9. *)
Definition isdecimal_char (c : ascii) : bool := in_range 48 57 c.

(** [str.isdecimal]: every character is a decimal digit and there is at
    least one character. *)
Definition isdecimal (w : str) : bool :=
  match w with
  | [] => false
  | _ :: _ => forallb isdecimal_char w
  end.

(** [str.isalpha] per character on Latin-1 (categories Lu, Ll, Lo). *)
Definition isalpha_char (c : ascii) : bool :=
  in_range 65 90 c || in_range 97 122 c
  || (ord c =? 170)%N || (ord c =? 181)%N || (ord c =? 186)%N
  || (in_range 192 255 c && negb (ord c =? 215)%N && negb (ord c =? 247)%N).

Definition isalpha (w : str) : bool :=
  match w with
  | [] => false
  | _ :: _ => forallb isalpha_char w
  end.

(** The word being scanned, closed at a separator or at the end of input:
    an empty run yields no word. *)
Definition flush (cur : str) : list str :=
  match cur with
  | [] => []
  | _ :: _ => [cur]
  end.

(** [s.split()] with no separator: the maximal runs of non-whitespace
    characters, left to right.  [cur] is the run read so far. *)
Fixpoint str_split_from (cur : str) (s : str) : list str :=
  match s with
  | [] => flush cur
  | c :: rest =>
      if isspace c then flush cur ++ str_split_from [] rest
      else str_split_from (cur ++ [c]) rest
  end.

Definition str_split (s : str) : list str := str_split_from [] s.

(** [s.split(sep)] for a one-character separator: the fields between the
    separators, empty fields included. *)
Fixpoint str_split_sep (sep : ascii) (s : str) : list str :=
  match s with
  | [] => [[]]
  | c :: rest =>
      if Ascii.eqb c sep then [] :: str_split_sep sep rest
      else match str_split_sep sep rest with
           | field :: fields => (c :: field) :: fields
           | [] => [[c]]
           end
  end.

(** ** The tokenizer: [split] *)

(** The first loop of [split]: [for char in punctuation:
    question = question.replace(char, "")]. *)
Definition strip_punctuation (question : str) : str :=
  fold_left (fun question char => replace char question) punctuation question.

(** The test of the second loop. *)
Definition keep_word (word : str) : bool :=
  (2 <? length word) || isdecimal word.

(** [split(question)]. *)
Definition split (question : str) : list str :=
  let question := strip_punctuation question in
  let question := lower question in
  fold_left
    (fun words word => if keep_word word then words ++ [word] else words)
    (str_split question) [].

(** The raw words [split] filters: the whitespace-separated words of the
    input once punctuation is removed and letters are lowercased. *)
Definition raw_words (question : str) : list str :=
  str_split (lower (strip_punctuation question)).

(** Membership in [string.punctuation]. *)
Definition is_punct (c : ascii) : bool := existsb (Ascii.eqb c) punctuation.

Definition nonspace (c : ascii) : bool := negb (isspace c).

(** A word of [str.split()] is never empty and holds no whitespace. *)
Definition is_word (w : str) : Prop := w <> [] /\ forallb nonspace w = true.

(** ** The word test: [Levenshtein.ratio] with a score cutoff *)

(** levenshtein ratio from which two words are considered to be the same.
    The source writes the float [0.8]; the binary64 float of that literal is
    3602879701896397 / 2^52, above 4/5 by 1 / (5 * 2^52), and that number
    is the value of the constant. *)
Definition SCORE_CUTOFF : Q := 3602879701896397 # 4503599627370496.

(** maximum amount of question matches to send in response *)
Definition MATCHES_LIMIT : nat := 10.

(** Length of a longest common subsequence of two strings. *)
Fixpoint lcs (s1 : str) : str -> nat :=
  match s1 with
  | [] => fun _ => 0
  | x :: s1' =>
      fix lcs_row (s2 : str) : nat :=
        match s2 with
        | [] => 0
        | y :: s2' =>
            if Ascii.eqb x y then S (lcs s1' s2')
            else Nat.max (lcs s1' s2) (lcs_row s2')
        end
  end.

(** The indel distance: the least number of single-character insertions and
    deletions that turn [s1] into [s2]. *)
Definition indel_distance (s1 s2 : str) : nat :=
  length s1 + length s2 - 2 * lcs s1 s2.

(** The normalized indel similarity, [1 - distance / (len1 + len2)], which
    is 1 for two empty strings. *)
Definition indel_normalized_similarity (s1 s2 : str) : Q :=
  let maximum := length s1 + length s2 in
  let norm_dist :=
    if maximum =? 0 then 0%Q
    else (Z.of_nat (indel_distance s1 s2) # Pos.of_nat maximum)%Q in
  (1 - norm_dist)%Q.

(** [Levenshtein.ratio(s1, s2, score_cutoff=score_cutoff)]: the similarity,
    or 0 when it is below the cutoff.  The similarity is exact here and is
    compared with the exact value of the cutoff.  With the float 0.8 as the
    cutoff, a similarity of exactly 4/5, as between "hello" and "hallo", is
    below the cutoff and the result is 0, as it is when the program runs;
    the results on both sides of 4/5 are those of [is_match_distance]. *)
Definition Levenshtein_ratio (s1 s2 : str) (score_cutoff : Q) : Q :=
  let norm_sim := indel_normalized_similarity s1 s2 in
  if Qle_bool score_cutoff norm_sim then norm_sim else 0%Q.

(** Truth value of a Python float in an [if]: any number but zero. *)
Definition truthy (x : Q) : bool := negb (Qeq_bool x 0).

(** The condition of the innermost [if] of [get_question_matches]. *)
Definition is_match (question_word user_word : str) : bool :=
  truthy (Levenshtein_ratio question_word user_word SCORE_CUTOFF).

(** The similarity ratio is at least the cutoff [SCORE_CUTOFF]. *)
Definition ratio_reaches_cutoff (a b : str) : bool :=
  Qle_bool SCORE_CUTOFF (indel_normalized_similarity a b).

(** ** The scorer: [get_question_matches] *)

(** [l.sort(key=key, reverse=True)]: Python's sort is stable, also under
    [reverse=True]; it is modelled by a stable insertion sort, descending
    in [key]. *)
Fixpoint insert_desc {A : Type} (key : A -> nat) (x : A) (l : list A) : list A :=
  match l with
  | [] => [x]
  | y :: l' => if key x <? key y then y :: insert_desc key x l' else x :: l
  end.

Definition sort_reverse {A : Type} (key : A -> nat) (l : list A) : list A :=
  fold_right (insert_desc key) [] l.

(** [a] may stand before [b] in a list sorted by [key], descending. *)
Definition descending {A : Type} (key : A -> nat) (a b : A) : Prop :=
  key b <= key a.

(** The two inner loops: [matches_number] once every question word has been
    compared with every user word. *)
Definition count_matches (question_words user_words : list str) : nat :=
  fold_left
    (fun matches_number question_word =>
       fold_left
         (fun matches_number user_word =>
            if is_match question_word user_word
            then matches_number + 1 else matches_number)
         user_words matches_number)
    question_words 0.

(** The list [matches] when the loop over [questions] ends, before it is
    sorted. *)
Definition collect_matches (user_words : list str) (questions : list str)
  : list (str * nat) :=
  fold_left
    (fun matches question =>
       let question_words := split question in
       let matches_number := count_matches question_words user_words in
       if 0 <? matches_number
       then matches ++ [(question, matches_number)] else matches)
    questions [].

(** [get_question_matches(user_input, questions)]. *)
Definition get_question_matches (user_input : str) (questions : list str)
  : list (str * nat) :=
  let user_words := split user_input in
  let matches := collect_matches user_words questions in
  sort_reverse snd matches.

(** The number of (questionWord, userWord) pairs, one word from the
    tokens of the candidate and one from the tokens of the utterance, whose
    similarity ratio is at least the cutoff. *)
Definition matching_pairs (user_input question : str) : list (str * str) :=
  filter (fun p => ratio_reaches_cutoff (fst p) (snd p))
         (list_prod (split question) (split user_input)).

Definition pair_count (user_input question : str) : nat :=
  length (matching_pairs user_input question).

(** The candidates with at least one matching pair, each with its count, in
    the order of the candidate list. *)
Definition scanned_matches (user_input : str) (questions : list str)
  : list (str * nat) :=
  filter (fun m => 1 <=? snd m)
         (map (fun question => (question, pair_count user_input question)) questions).

(** ** The corpus: the table [questions] *)

Module Question.
Record t : Type := mk {
  id : Z;
  question_group : option Z;
  question : str;
  answer : str;
  (* divide links with ; *)
  pictures_links : option str
}.
End Question.

(** The rows of the table, in the order a [select] returns them. *)
Definition database : Type := list Question.t.

Inductive exception : Type :=
| ValueError (msg : str).

Definition str_eqb (a b : str) : bool :=
  if list_eq_dec ascii_dec a b then true else false.

(** [get_questions()]. *)
Definition get_questions (db : database) : list str :=
  fold_left (fun questions row => questions ++ [Question.question row]) db [].

(** [session.scalar(select(Question).where(Question.question == question))]:
    the first row whose question is the requested one, if any. *)
Definition scalar_where_question (db : database) (question : str)
  : option Question.t :=
  find (fun row => str_eqb (Question.question row) question) db.

(** [get_answer(question)]: the error raised is the left summand. *)
Definition get_answer (db : database) (question : str)
  : exception + (str * list str) :=
  match scalar_where_question db question with
  | None => inl (ValueError (lit "No question " ++ question ++ lit " in db"))
  | Some db_question =>
      inr (Question.answer db_question,
           match Question.pictures_links db_question with
           | Some links => str_split_sep ";" links
           | None => []
           end)
  end.

(** The picture links a row stores: the fields of [pictures_links] between
    the [;], none when the column is NULL. *)
Definition stored_links (row : Question.t) : list str :=
  match Question.pictures_links row with
  | Some links => str_split_sep ";" links
  | None => []
  end.

(** The message of the error [get_answer] raises for [question]. *)
Definition unknown_question (question : str) : exception :=
  ValueError (lit "No question " ++ question ++ lit " in db").

(** ** The match service: [InputResponse.from_request] *)

Module InputResponse.
(** [InputResponse.from_request(request)], with [request.input = input];
    the result is the field [questions] of the response. *)
Definition from_request (db : database) (input : str) : list str :=
  let questions : list str := [] in
  let matches := get_question_matches input (get_questions db) in
  questions ++ map fst (firstn MATCHES_LIMIT matches).
End InputResponse.

(** ** Joining strings *)

(** [sep.join(words)]. *)
Fixpoint join (sep : str) (words : list str) : str :=
  match words with
  | [] => []
  | [word] => word
  | word :: rest => word ++ sep ++ join sep rest
  end.

(** ** The presentation of an answer: [normalize] and [QuestionResponse] *)

(** path to images used in db *)
Definition DB_PICTURES_PATH : str := lit "./images/db/".

(** The line feed, the character [\n] of the source. *)
Definition newline : ascii := chr 10.

(** [string.replace("\n", "<br>")]: every line feed becomes the four
    characters of the tag. *)
Definition replace_newlines (string : str) : str :=
  flat_map (fun c => if Ascii.eqb c newline then lit "<br>" else [c]) string.

(** [normalize(string)].  [linkify] rewrites URLs with the regular-expression
    engine of Python, which this development does not embed: the functions
    that call it take it as the parameter [linkify], a function on
    strings. *)
Definition normalize (linkify : str -> str) (string : str) : str :=
  let string := replace_newlines string in
  let string := linkify string in
  string.

Module QuestionResponse.
Record t : Type := mk {
  question : str;
  answer : str;
  pictures : list str
}.

(** [QuestionResponse.from_request(request)], with
    [request.question = request_question]: the error of [get_answer] is
    raised before any field is set. *)
Definition from_request (linkify : str -> str) (db : database)
           (request_question : str) : exception + t :=
  match get_answer db request_question with
  | inl error => inl error
  | inr (answer, links) =>
      inr {| question := request_question;
             answer := normalize linkify answer;
             pictures :=
               fold_left
                 (fun pictures picture_link =>
                    pictures ++ [DB_PICTURES_PATH ++ picture_link])
                 links [] |}
  end.
End QuestionResponse.


(** ** The dispatch: [get_response_object] *)

(** The subclasses of [Request], in the order of their definition. *)
Module Request.
Inductive t : Type :=
| Input (input : str)
| Question (question : str).

End Request.

Module Response.
Inductive t : Type :=
| Input (questions : list str)
| Question (response : QuestionResponse.t).
End Response.





(** A two-row table used in the worked instances. *)
Definition sample_db : database :=
  [ Question.mk 1 (Some 1%Z) (lit "How are you") (lit "Fine") None;
    Question.mk 2 (Some 1%Z) (lit "How old are you") (lit "Old enough")
                (Some (lit "age.png;cake.png")) ].

(** An eleven-row table: one question that shares one word with "how old",
    then ten that share two. *)
Definition crowded_db : database :=
  Question.mk 0 None (lit "How are you") (lit "Fine") None
  :: map (fun digit =>
            Question.mk (Z.of_N (ord digit)) None (lit "How old " ++ [digit])
                        (lit "Old") None)
         (lit "0123456789").

(** The tokenizer and the word test are unfolded on purpose only. *)
Arguments split : simpl never.
Arguments strip_punctuation : simpl never.
Arguments is_match : simpl never.
Arguments ratio_reaches_cutoff : simpl never.
Arguments count_matches : simpl never.
Arguments pair_count : simpl never.

(** ** Worked examples *)

Example split_what_is :
  split (lit "What is 2+2? A: it's 4!") = [lit "what"; lit "22"; lit "its"; lit "4"].
Proof. vm_compute. reflexivity. Qed.


(** ** Facts about the character tables *)

Ltac by_cases_on_char c :=
  destruct c as [[] [] [] [] [] [] [] []]; vm_compute; reflexivity.

Lemma isspace_lower_char (c : ascii) : isspace (lower_char c) = isspace c.
Proof. by_cases_on_char c. Qed.

Lemma is_punct_lower_char (c : ascii) : is_punct (lower_char c) = is_punct c.
Proof. by_cases_on_char c. Qed.

Lemma lower_char_idempotent (c : ascii) : lower_char (lower_char c) = lower_char c.
Proof. by_cases_on_char c. Qed.

Lemma is_punct_In (c : ascii) : is_punct c = true <-> In c punctuation.
Proof.
  unfold is_punct. rewrite existsb_exists. split.
  - intros [x [Hx Heq]]. apply Ascii.eqb_eq in Heq. now subst.
  - intros H. exists c. split; [assumption | apply Ascii.eqb_refl].
Qed.

(** ** Facts about [replace] and the punctuation loop *)

Lemma replace_loop_is_filter (chars : str) (s : str) :
  fold_left (fun question char => replace char question) chars s
  = filter (fun c => negb (existsb (Ascii.eqb c) chars)) s.
Proof.
  revert s. induction chars as [|char chars IH]; intros s; simpl.
  - induction s as [|c s IHs]; simpl; [reflexivity | now rewrite <- IHs].
  - rewrite IH. unfold replace.
    induction s as [|c s IHs]; simpl; [reflexivity|].
    destruct (Ascii.eqb c char); simpl.
    + exact IHs.
    + destruct (existsb (Ascii.eqb c) chars); simpl; [exact IHs | now rewrite IHs].
Qed.

Lemma strip_punctuation_filter (s : str) :
  strip_punctuation s = filter (fun c => negb (is_punct c)) s.
Proof. apply replace_loop_is_filter. Qed.

Lemma strip_punctuation_app (s1 s2 : str) :
  strip_punctuation (s1 ++ s2) = strip_punctuation s1 ++ strip_punctuation s2.
Proof. rewrite !strip_punctuation_filter. apply filter_app. Qed.


Lemma strip_punctuation_no_punct (s : str) :
  Forall (fun c => is_punct c = false) (strip_punctuation s).
Proof.
  rewrite strip_punctuation_filter. apply Forall_forall.
  intros c Hc. apply filter_In in Hc. destruct Hc as [_ Hc].
  now apply negb_true_iff in Hc.
Qed.

(** ** Facts about [str_split] *)

Lemma flush_app_nonempty (cur : str) (c : ascii) (s : str) :
  flush (cur ++ c :: s) = [cur ++ c :: s].
Proof. destruct cur; reflexivity. Qed.

Lemma str_split_from_all_space (cur s : str) :
  forallb isspace s = true -> str_split_from cur s = flush cur.
Proof.
  revert cur. induction s as [|c s IH]; intros cur H; simpl in *.
  - reflexivity.
  - apply andb_true_iff in H. destruct H as [Hc Hs].
    rewrite Hc, (IH [] Hs). simpl. apply app_nil_r.
Qed.

Lemma str_split_from_no_space (cur s : str) :
  forallb nonspace s = true -> str_split_from cur s = flush (cur ++ s).
Proof.
  revert cur. induction s as [|c s IH]; intros cur H; simpl in *.
  - now rewrite app_nil_r.
  - apply andb_true_iff in H. destruct H as [Hc Hs].
    unfold nonspace in Hc. apply negb_true_iff in Hc. rewrite Hc.
    rewrite (IH _ Hs), <- app_assoc. reflexivity.
Qed.

Lemma flush_words (cur : str) :
  forallb nonspace cur = true -> Forall is_word (flush cur).
Proof.
  destruct cur as [|c cur]; intros H; simpl; constructor; [|constructor].
  split; [discriminate | exact H].
Qed.

Lemma str_split_from_words (cur s : str) :
  forallb nonspace cur = true -> Forall is_word (str_split_from cur s).
Proof.
  revert cur. induction s as [|c s IH]; intros cur Hcur; simpl.
  - now apply flush_words.
  - destruct (isspace c) eqn:Hc.
    + apply Forall_app. split; [now apply flush_words | now apply IH].
    + apply IH. rewrite forallb_app, Hcur. simpl. unfold nonspace. now rewrite Hc.
Qed.

Lemma str_split_words (s : str) : Forall is_word (str_split s).
Proof. now apply str_split_from_words. Qed.

(** Every character of a word of [s.split()] is a character of [s]. *)
Lemma str_split_from_chars (cur s w : str) (c : ascii) :
  In w (str_split_from cur s) -> In c w -> In c (cur ++ s).
Proof.
  revert cur. induction s as [|x s IH]; intros cur Hw Hc; simpl in Hw.
  - destruct cur; simpl in Hw; [contradiction|].
    destruct Hw as [<-|[]]. now rewrite app_nil_r.
  - destruct (isspace x).
    + apply in_app_or in Hw. destruct Hw as [Hw|Hw].
      * destruct cur; simpl in Hw; [contradiction|].
        destruct Hw as [<-|[]]. apply in_or_app. now left.
      * specialize (IH [] Hw Hc). simpl in IH.
        apply in_or_app. right. now right.
    + specialize (IH _ Hw Hc). now rewrite <- app_assoc in IH.
Qed.

(** ** Facts about [split] *)

Lemma append_loop_is_filter {A : Type} (keep : A -> bool) (l acc : list A) :
  fold_left (fun words word => if keep word then words ++ [word] else words) l acc
  = acc ++ filter keep l.
Proof.
  revert acc. induction l as [|x l IH]; intros acc; simpl.
  - now rewrite app_nil_r.
  - rewrite IH. destruct (keep x); [|reflexivity].
    now rewrite <- app_assoc.
Qed.

Lemma split_is_filter (s : str) : split s = filter keep_word (raw_words s).
Proof. unfold split, raw_words. now rewrite append_loop_is_filter. Qed.

Lemma raw_words_are_words (s : str) : Forall is_word (raw_words s).
Proof. apply str_split_words. Qed.

Lemma isdecimal_Forall (w : str) :
  w <> [] -> (isdecimal w = true <-> Forall (fun c => isdecimal_char c = true) w).
Proof.
  intros Hw. destruct w as [|c w]; [contradiction|].
  unfold isdecimal. rewrite forallb_forall, Forall_forall. reflexivity.
Qed.

Lemma lower_all_space (s : str) :
  forallb isspace s = true -> forallb isspace (lower s) = true.
Proof.
  induction s as [|c s IH]; simpl; [reflexivity|].
  rewrite isspace_lower_char. intros H. apply andb_true_iff in H.
  destruct H as [-> Hs]. now apply IH.
Qed.


Lemma strip_punctuation_only_space (s : str) :
  (forall c, In c s -> In c punctuation \/ isspace c = true) ->
  forallb isspace (strip_punctuation s) = true.
Proof.
  intros H. rewrite strip_punctuation_filter. apply forallb_forall.
  intros c Hc. apply filter_In in Hc. destruct Hc as [Hin Hnp].
  destruct (H c Hin) as [Hp|Hs]; [|exact Hs].
  apply is_punct_In in Hp. rewrite Hp in Hnp. discriminate.
Qed.


(** ** Facts about the word test *)

Lemma lcs_nil_r (s : str) : lcs s [] = 0.
Proof. destruct s; reflexivity. Qed.

Lemma lcs_cons_cons (x y : ascii) (s1 s2 : str) :
  lcs (x :: s1) (y :: s2)
  = if Ascii.eqb x y then S (lcs s1 s2)
    else Nat.max (lcs s1 (y :: s2)) (lcs (x :: s1) s2).
Proof. reflexivity. Qed.

Lemma lcs_sym (s1 s2 : str) : lcs s1 s2 = lcs s2 s1.
Proof.
  revert s2. induction s1 as [|x s1 IH1]; intros s2.
  - now rewrite lcs_nil_r.
  - induction s2 as [|y s2 IH2].
    + reflexivity.
    + rewrite !lcs_cons_cons, Ascii.eqb_sym.
      rewrite (IH1 s2), (IH1 (y :: s2)), IH2.
      destruct (Ascii.eqb y x); [reflexivity | apply Nat.max_comm].
Qed.

Lemma lcs_refl (s : str) : lcs s s = length s.
Proof.
  induction s as [|c s IH]; [reflexivity|].
  rewrite lcs_cons_cons, Ascii.eqb_refl, IH. reflexivity.
Qed.

(** A common subsequence is no longer than either string, so the
    subtraction in [indel_distance] never truncates. *)
Lemma lcs_le_lengths (s1 s2 : str) :
  lcs s1 s2 <= length s1 /\ lcs s1 s2 <= length s2.
Proof.
  revert s2. induction s1 as [|x s1 IH1]; intros s2.
  - simpl. lia.
  - induction s2 as [|y s2 IH2].
    + simpl. lia.
    + rewrite lcs_cons_cons.
      pose proof (IH1 s2). pose proof (IH1 (y :: s2)).
      destruct (Ascii.eqb x y); simpl length in *; lia.
Qed.

Lemma indel_distance_sym (s1 s2 : str) :
  indel_distance s1 s2 = indel_distance s2 s1.
Proof. unfold indel_distance. rewrite (lcs_sym s1 s2). lia. Qed.

Lemma indel_distance_refl (s : str) : indel_distance s s = 0.
Proof. unfold indel_distance. rewrite lcs_refl. lia. Qed.

Lemma indel_normalized_similarity_sym (s1 s2 : str) :
  indel_normalized_similarity s1 s2 = indel_normalized_similarity s2 s1.
Proof.
  unfold indel_normalized_similarity.
  now rewrite (indel_distance_sym s1 s2), (Nat.add_comm (length s1)).
Qed.

(** The returned ratio is non-zero exactly when the similarity reaches the
    cutoff: a similarity that reaches the cutoff is never zero. *)
Lemma is_match_iff_ratio (a b : str) : is_match a b = ratio_reaches_cutoff a b.
Proof.
  unfold is_match, ratio_reaches_cutoff, Levenshtein_ratio, truthy.
  destruct (Qle_bool SCORE_CUTOFF (indel_normalized_similarity a b)) eqn:Hle.
  - apply negb_true_iff. apply not_true_is_false. intros Heq.
    apply Qeq_bool_iff in Heq. apply Qle_bool_iff in Hle.
    rewrite Heq in Hle. revert Hle. unfold SCORE_CUTOFF, Qle. simpl. lia.
  - reflexivity.
Qed.

(** ** Facts about the counting loops *)

Lemma count_loop_is_filter {A : Type} (hit : A -> bool) (l : list A) (n0 : nat) :
  fold_left (fun n x => if hit x then n + 1 else n) l n0
  = n0 + length (filter hit l).
Proof.
  revert n0. induction l as [|x l IH]; intros n0; simpl.
  - lia.
  - rewrite IH. destruct (hit x); simpl; lia.
Qed.

Lemma filter_map_pair {A B : Type} (f : A * B -> bool) (x : A) (l : list B) :
  filter f (map (pair x) l) = map (pair x) (filter (fun y => f (x, y)) l).
Proof.
  induction l as [|y l IH]; simpl; [reflexivity|].
  destruct (f (x, y)); simpl; now rewrite IH.
Qed.

Lemma count_matches_from (question_words user_words : list str) (n0 : nat) :
  fold_left
    (fun matches_number question_word =>
       fold_left
         (fun matches_number user_word =>
            if is_match question_word user_word
            then matches_number + 1 else matches_number)
         user_words matches_number)
    question_words n0
  = n0 + length (filter (fun p => is_match (fst p) (snd p))
                        (list_prod question_words user_words)).
Proof.
  revert n0. induction question_words as [|qw qws IH]; intros n0; simpl.
  - lia.
  - rewrite IH, (count_loop_is_filter (is_match qw)).
    rewrite filter_app, length_app, filter_map_pair, length_map. simpl.
    change (fun y : str => is_match qw y) with (is_match qw). lia.
Qed.

Lemma count_matches_is_pair_count (user_input question : str) :
  count_matches (split question) (split user_input) = pair_count user_input question.
Proof.
  unfold count_matches, pair_count, matching_pairs.
  rewrite count_matches_from, Nat.add_0_l. f_equal.
  apply filter_ext. intros [qw uw]. apply is_match_iff_ratio.
Qed.

Lemma count_matches_no_user_words (question_words : list str) :
  count_matches question_words [] = 0.
Proof.
  unfold count_matches. induction question_words as [|qw qws IH]; simpl; assumption || reflexivity.
Qed.

Lemma collect_loop_is_filter {A B : Type} (g : A -> B) (keep : B -> bool)
      (l : list A) (acc : list B) :
  fold_left (fun matches x => if keep (g x) then matches ++ [g x] else matches) l acc
  = acc ++ filter keep (map g l).
Proof.
  revert acc. induction l as [|x l IH]; intros acc; simpl.
  - now rewrite app_nil_r.
  - rewrite IH. destruct (keep (g x)); [|reflexivity].
    now rewrite <- app_assoc.
Qed.

Lemma collect_matches_scanned (user_input : str) (questions : list str) :
  collect_matches (split user_input) questions = scanned_matches user_input questions.
Proof.
  unfold collect_matches, scanned_matches.
  rewrite (collect_loop_is_filter
             (fun question => (question, count_matches (split question) (split user_input)))
             (fun m => 0 <? snd m)).
  rewrite app_nil_l.
  rewrite (map_ext _ (fun question => (question, pair_count user_input question)))
    by (intros q; now rewrite count_matches_is_pair_count).
  apply filter_ext. intros m. reflexivity.
Qed.

(** ** Facts about the sort *)

Section SortReverse.
Context {A : Type} (key : A -> nat).

Lemma insert_desc_perm (x : A) (l : list A) :
  Permutation (insert_desc key x l) (x :: l).
Proof.
  induction l as [|y l IH]; simpl; [reflexivity|].
  destruct (key x <? key y); [|reflexivity].
  rewrite IH. apply perm_swap.
Qed.

Lemma sort_reverse_perm (l : list A) : Permutation (sort_reverse key l) l.
Proof.
  induction l as [|x l IH]; simpl; [constructor|].
  rewrite insert_desc_perm. now constructor.
Qed.

Lemma insert_desc_sorted (x : A) (l : list A) :
  StronglySorted (descending key) l -> StronglySorted (descending key) (insert_desc key x l).
Proof.
  induction l as [|y l IH]; intros Hs; simpl.
  - repeat constructor.
  - inversion Hs as [|? ? Hl Hy]; subst.
    destruct (key x <? key y) eqn:Hlt.
    + apply Nat.ltb_lt in Hlt. constructor; [now apply IH|].
      apply Forall_forall. intros z Hz.
      apply (Permutation_in _ (insert_desc_perm x l)) in Hz.
      destruct Hz as [<-|Hz]; [unfold descending; lia|].
      rewrite Forall_forall in Hy. now apply Hy.
    + apply Nat.ltb_ge in Hlt. constructor; [assumption|].
      constructor; [exact Hlt|].
      apply Forall_forall. intros z Hz. rewrite Forall_forall in Hy.
      specialize (Hy z Hz). unfold descending in *. lia.
Qed.

Lemma sort_reverse_sorted (l : list A) :
  StronglySorted (descending key) (sort_reverse key l).
Proof.
  induction l as [|x l IH]; simpl; [constructor | now apply insert_desc_sorted].
Qed.

Lemma insert_desc_same_key (k : nat) (x : A) (l : list A) :
  filter (fun y => key y =? k) (insert_desc key x l)
  = filter (fun y => key y =? k) (x :: l).
Proof.
  induction l as [|y l IH]; [reflexivity|].
  simpl insert_desc. destruct (key x <? key y) eqn:Hlt; [|reflexivity].
  apply Nat.ltb_lt in Hlt. simpl in *. rewrite IH.
  destruct (key x =? k) eqn:Hx; [|reflexivity].
  apply Nat.eqb_eq in Hx.
  assert (Hy : (key y =? k) = false) by (apply Nat.eqb_neq; lia).
  now rewrite Hy.
Qed.

Lemma sort_reverse_stable (k : nat) (l : list A) :
  filter (fun y => key y =? k) (sort_reverse key l)
  = filter (fun y => key y =? k) l.
Proof.
  induction l as [|x l IH]; [reflexivity|].
  simpl sort_reverse. rewrite insert_desc_same_key. simpl. now rewrite IH.
Qed.

End SortReverse.

(** ** Facts about the corpus and the match service *)

Lemma get_questions_map (db : database) :
  get_questions db = map Question.question db.
Proof.
  unfold get_questions.
  assert (H : forall acc, fold_left (fun questions row => questions ++ [Question.question row]) db acc
                          = acc ++ map Question.question db).
  { induction db as [|row db IH]; intros acc; simpl.
    - now rewrite app_nil_r.
    - now rewrite IH, <- app_assoc. }
  apply H.
Qed.

Lemma get_question_matches_scanned (user_input : str) (questions : list str) :
  get_question_matches user_input questions
  = sort_reverse snd (scanned_matches user_input questions).
Proof. unfold get_question_matches. now rewrite collect_matches_scanned. Qed.

Lemma scanned_matches_In (user_input : str) (questions : list str) (question : str) (n : nat) :
  In (question, n) (scanned_matches user_input questions)
  <-> In question questions /\ n = pair_count user_input question /\ 1 <= n.
Proof.
  unfold scanned_matches. rewrite filter_In, in_map_iff. cbn beta iota delta [snd]. split.
  - intros [[q [Heq Hq]] Hn]. inversion Heq; subst.
    apply Nat.leb_le in Hn. auto.
  - intros [Hq [-> Hn]]. split.
    + now exists question.
    + now apply Nat.leb_le.
Qed.

Lemma scanned_matches_none (user_input : str) (questions : list str) :
  (forall question, In question questions -> pair_count user_input question = 0) ->
  scanned_matches user_input questions = [].
Proof.
  intros H.
  destruct (scanned_matches user_input questions) as [|[q n] rest] eqn:Hscan;
    [reflexivity|].
  assert (Hin : In (q, n) (scanned_matches user_input questions))
    by (rewrite Hscan; now left).
  apply scanned_matches_In in Hin. destruct Hin as [Hq [Hn Hpos]].
  rewrite (H q Hq) in Hn. lia.
Qed.

Lemma pair_count_no_user_words (user_input question : str) :
  split user_input = [] -> pair_count user_input question = 0.
Proof.
  intros H. rewrite <- count_matches_is_pair_count, H.
  apply count_matches_no_user_words.
Qed.

(** ** The claims *)

(** X19. The number [get_question_matches] pairs with a candidate is the
    number of (questionWord, userWord) pairs, questionWord a token of the
    candidate and userWord a token of the utterance, that pass the word test
    of the program, each pair counting for one; a candidate is in the result
    if and only if that number is at least 1, and the result holds each such
    candidate once per occurrence in the candidate list. *)
Theorem get_question_matches_counts_pairs (user_input : str) (questions : list str) :
  Permutation (get_question_matches user_input questions)
              (scanned_matches user_input questions)
  /\ (forall question n,
        In (question, n) (get_question_matches user_input questions)
        <-> In question questions /\ n = pair_count user_input question /\ 1 <= n)
  /\ (forall question,
        In question (map fst (get_question_matches user_input questions))
        <-> In question questions /\ 1 <= pair_count user_input question).
Proof.
  assert (Hperm : Permutation (get_question_matches user_input questions)
                              (scanned_matches user_input questions)).
  { rewrite get_question_matches_scanned. apply sort_reverse_perm. }
  assert (Hin : forall question n,
             In (question, n) (get_question_matches user_input questions)
             <-> In question questions /\ n = pair_count user_input question /\ 1 <= n).
  { intros question n. rewrite <- scanned_matches_In. split; intros H.
    - exact (Permutation_in _ Hperm H).
    - exact (Permutation_in _ (Permutation_sym Hperm) H). }
  split; [exact Hperm|]. split; [exact Hin|].
  intros question. rewrite in_map_iff. split.
  - intros [[q n] [Hq Hm]]. simpl in Hq. subst q.
    apply Hin in Hm. destruct Hm as [Hq [-> Hn]]. auto.
  - intros [Hq Hn]. exists (question, pair_count user_input question).
    split; [reflexivity|]. apply Hin. auto.
Qed.


(** C2. The list returned by [get_question_matches] is sorted by match count,
    descending, and entries with equal counts keep the order in which their
    questions stand in the candidate list: for every count [k], the entries
    of count [k] are, in order, those of the scan of the candidate list. *)
Theorem get_question_matches_sorted_stable (user_input : str) (questions : list str) :
  StronglySorted (fun m1 m2 => snd m2 <= snd m1)
                 (get_question_matches user_input questions)
  /\ (forall k,
        filter (fun m => snd m =? k) (get_question_matches user_input questions)
        = filter (fun m => snd m =? k) (scanned_matches user_input questions)).
Proof.
  rewrite get_question_matches_scanned. split.
  - apply (sort_reverse_sorted snd).
  - intros k. apply (sort_reverse_stable snd).
Qed.

(** C3. [InputResponse.from_request] returns the question texts of the first
    [MATCHES_LIMIT] = 10 entries of the ranked list: never more than 10
    entries, all the matching questions in ranked order when at most 10
    candidates match, and the empty list when no candidate matches. *)
Theorem from_request_first_matches (db : database) (input : str) :
  InputResponse.from_request db input
  = map fst (firstn MATCHES_LIMIT (get_question_matches input (get_questions db)))
  /\ MATCHES_LIMIT = 10
  /\ length (InputResponse.from_request db input) <= MATCHES_LIMIT
  /\ (length (get_question_matches input (get_questions db)) <= MATCHES_LIMIT ->
      InputResponse.from_request db input
      = map fst (get_question_matches input (get_questions db)))
  /\ ((forall question, In question (get_questions db) -> pair_count input question = 0) ->
      InputResponse.from_request db input = []).
Proof.
  assert (Heq : InputResponse.from_request db input
                = map fst (firstn MATCHES_LIMIT (get_question_matches input (get_questions db))))
    by reflexivity.
  split; [exact Heq|]. split; [reflexivity|]. rewrite Heq. split; [|split].
  - rewrite length_map. apply firstn_le_length.
  - intros Hlen. now rewrite firstn_all2.
  - intros Hnone. rewrite get_question_matches_scanned.
    now rewrite (scanned_matches_none _ _ Hnone).
Qed.

(** C10. If the utterance tokenizes to no word, [get_question_matches]
    returns the empty list whatever the candidates, and so does
    [InputResponse.from_request]. *)
Theorem no_user_words_no_matches (db : database) (user_input : str) (questions : list str) :
  split user_input = [] ->
  get_question_matches user_input questions = []
  /\ InputResponse.from_request db user_input = [].
Proof.
  intros Hempty.
  assert (Hnone : forall qs, get_question_matches user_input qs = []).
  { intros qs. rewrite get_question_matches_scanned.
    rewrite scanned_matches_none; [reflexivity|].
    intros q _. now apply pair_count_no_user_words. }
  split; [apply Hnone|].
  unfold InputResponse.from_request. now rewrite Hnone.
Qed.

(** C7. The word test is symmetric, and it holds between a non-empty token
    and itself. *)
Theorem is_match_symmetric_reflexive :
  (forall a b : str, is_match a b = is_match b a)
  /\ (forall x : str, x <> [] -> is_match x x = true).
Proof.
  split.
  - intros a b. unfold is_match, Levenshtein_ratio.
    now rewrite (indel_normalized_similarity_sym a b).
  - intros x Hx. rewrite is_match_iff_ratio.
    unfold ratio_reaches_cutoff, indel_normalized_similarity.
    rewrite indel_distance_refl.
    destruct x as [|c x]; [contradiction|].
    simpl length. rewrite Nat.add_succ_l. simpl Nat.eqb.
    apply Qle_bool_iff.
    unfold SCORE_CUTOFF, Qle, Qminus, Qplus, Qopp. cbn [Qnum Qden]. lia.
Qed.

(** ** Facts about the tokens *)


Lemma str_split_single_word (w : str) :
  w <> [] -> forallb nonspace w = true -> str_split w = [w].
Proof.
  intros Hne Hns. unfold str_split. rewrite (str_split_from_no_space [] w Hns).
  simpl. destruct w; [contradiction | reflexivity].
Qed.


Lemma keep_word_long_or_decimal (w : str) :
  keep_word w = true <-> 2 < length w \/ isdecimal w = true.
Proof.
  unfold keep_word. rewrite orb_true_iff, Nat.ltb_lt. reflexivity.
Qed.

Lemma raw_word_chars (s w : str) (c : ascii) :
  In w (raw_words s) -> In c w ->
  is_punct c = false /\ isspace c = false /\ lower_char c = c.
Proof.
  intros Hw Hc.
  assert (Hsp : isspace c = false).
  { pose proof (raw_words_are_words s) as Hall. rewrite Forall_forall in Hall.
    destruct (Hall w Hw) as [_ Hns]. rewrite forallb_forall in Hns.
    specialize (Hns c Hc). unfold nonspace in Hns. apply negb_true_iff in Hns. exact Hns. }
  unfold raw_words, str_split in Hw.
  pose proof (str_split_from_chars [] _ w c Hw Hc) as Hin.
  rewrite app_nil_l in Hin.
  unfold lower in Hin. apply in_map_iff in Hin. destruct Hin as [c' [<- Hc']].
  pose proof (strip_punctuation_no_punct s) as Hnp. rewrite Forall_forall in Hnp.
  rewrite is_punct_lower_char, lower_char_idempotent.
  split; [exact (Hnp c' Hc') | split; [exact Hsp | reflexivity]].
Qed.

(** ** The claims about the tokenizer *)

(** C4. [split] keeps a raw word, that is a whitespace-separated word of the
    input once punctuation is removed and letters are lowercased, if and only
    if its length is greater than 2 or it consists entirely of decimal
    digits.  [split] is a total function; the empty string, and any string
    of punctuation and whitespace only, yield no token. *)
Theorem split_keeps_long_or_decimal_words (s : str) :
  split s = filter keep_word (raw_words s)
  /\ (forall w, In w (split s)
                <-> In w (raw_words s)
                    /\ (2 < length w \/ Forall (fun c => isdecimal_char c = true) w))
  /\ split [] = []
  /\ ((forall c, In c s -> In c punctuation \/ isspace c = true) -> split s = []).
Proof.
  split; [apply split_is_filter|]. split; [|split].
  - intros w. rewrite split_is_filter, filter_In, keep_word_long_or_decimal.
    split; intros [Hw Hkeep]; (split; [exact Hw|]).
    + destruct Hkeep as [Hlen|Hdec]; [left; exact Hlen | right].
      destruct w as [|c w]; [discriminate Hdec|].
      apply isdecimal_Forall; [discriminate | exact Hdec].
    + destruct Hkeep as [Hlen|Hdec]; [left; exact Hlen | right].
      pose proof (raw_words_are_words s) as Hall. rewrite Forall_forall in Hall.
      destruct (Hall w Hw) as [Hne _]. apply isdecimal_Forall; assumption.
  - reflexivity.
  - intros Honly. rewrite split_is_filter. unfold raw_words, str_split.
    rewrite str_split_from_all_space; [reflexivity|].
    apply lower_all_space, strip_punctuation_only_space. exact Honly.
Qed.

Lemma split_keeps_long_or_decimal_words_witness :
  split (lit " ?! ") = [].
Proof.
  apply (proj2 (proj2 (proj2 (split_keeps_long_or_decimal_words (lit " ?! "))))).
  intros c Hc. simpl in Hc.
  destruct Hc as [<-|[<-|[<-|[<-|[]]]]];
    (right; reflexivity) || (left; apply is_punct_In; reflexivity).
Defined.

(** C5, as the code has it.  Tokenizing ["What is 2+2? A: it's 4!"] yields
    [what], [22], [its], [4]: the short words "is" and "A" are dropped, the
    numeric tokens "22" (the merged "2+2") and "4" are kept despite their
    length, "what" is kept, and there is no token "2". *)
Theorem split_what_is_tokens :
  split (lit "What is 2+2? A: it's 4!") = [lit "what"; lit "22"; lit "its"; lit "4"]
  /\ ~ In (lit "is") (split (lit "What is 2+2? A: it's 4!"))
  /\ ~ In (lit "A") (split (lit "What is 2+2? A: it's 4!"))
  /\ ~ In (lit "a") (split (lit "What is 2+2? A: it's 4!"))
  /\ In (lit "22") (split (lit "What is 2+2? A: it's 4!"))
  /\ In (lit "4") (split (lit "What is 2+2? A: it's 4!"))
  /\ In (lit "what") (split (lit "What is 2+2? A: it's 4!")).
Proof.
  rewrite split_what_is. split; [reflexivity|].
  repeat split;
    try (intros [H|[H|[H|[H|[]]]]]; discriminate H);
    simpl; intuition.
Qed.

(** C5, as the specification words it, fails: the token "2" is not kept,
    because "2+2" is tokenized as the single word "22". *)
Lemma split_what_is_no_token_2 :
  ~ (~ In (lit "is") (split (lit "What is 2+2? A: it's 4!"))
     /\ ~ In (lit "A") (split (lit "What is 2+2? A: it's 4!"))
     /\ In (lit "2") (split (lit "What is 2+2? A: it's 4!"))
     /\ In (lit "4") (split (lit "What is 2+2? A: it's 4!"))
     /\ In (lit "what") (split (lit "What is 2+2? A: it's 4!"))).
Proof.
  rewrite split_what_is. intros [_ [_ [H2 _]]].
  destruct H2 as [H|[H|[H|[H|[]]]]]; discriminate H.
Qed.

(** C6, as the code has it.  Every token is either purely numeric (decimal
    digits only, of any length) or of length at least 3, alphabetic or
    not. *)
Theorem split_token_shape (s w : str) :
  In w (split s) -> isdecimal w = true \/ 3 <= length w.
Proof.
  rewrite split_is_filter, filter_In, keep_word_long_or_decimal.
  intros [Hw Hkeep].
  destruct Hkeep as [Hlen|Hdec]; [right; lia | left; exact Hdec].
Qed.

Lemma split_token_shape_witness :
  isdecimal (lit "abc123") = true \/ 3 <= length (lit "abc123").
Proof.
  apply (split_token_shape (lit "Abc123, x1 99")).
  vm_compute. left. reflexivity.
Defined.

(** C6, as the specification words it, fails: "abc123" is a token, and it
    is neither purely numeric nor purely alphabetic. *)
Lemma split_mixed_token :
  exists w, In w (split (lit "abc123"))
            /\ isdecimal w = false /\ isalpha w = false.
Proof.
  exists (lit "abc123"). split; [|split]; vm_compute; auto.
Qed.



(** ** Facts about the corpus lookup *)

Lemma str_eqb_eq (a b : str) : str_eqb a b = true <-> a = b.
Proof.
  unfold str_eqb. destruct (list_eq_dec ascii_dec a b) as [Heq|Hneq].
  - split; intros _; [exact Heq | reflexivity].
  - split; [discriminate | intros Heq; contradiction].
Qed.

Lemma scalar_where_question_none (db : database) (question : str) :
  scalar_where_question db question = None <-> ~ In question (get_questions db).
Proof.
  rewrite get_questions_map. unfold scalar_where_question.
  induction db as [|row db IH]; simpl.
  - split; [intros _ [] | reflexivity].
  - destruct (str_eqb (Question.question row) question) eqn:Hrow.
    + apply str_eqb_eq in Hrow. split; [discriminate|].
      intros Hnot. exfalso. apply Hnot. left. exact Hrow.
    + rewrite IH. split.
      * intros Hnot [Heq|Hin]; [|exact (Hnot Hin)].
        apply str_eqb_eq in Heq. rewrite Heq in Hrow. discriminate.
      * intros Hnot Hin. apply Hnot. right. exact Hin.
Qed.

Lemma scalar_where_question_some (db : database) (question : str) (row : Question.t) :
  scalar_where_question db question = Some row ->
  In row db /\ Question.question row = question.
Proof.
  unfold scalar_where_question. intros Hfind.
  apply find_some in Hfind. destruct Hfind as [Hin Heq].
  apply str_eqb_eq in Heq. split; assumption.
Qed.


Lemma get_answer_of_scalar (db : database) (question : str) :
  get_answer db question
  = match scalar_where_question db question with
    | None => inl (unknown_question question)
    | Some row => inr (Question.answer row, stored_links row)
    end.
Proof. reflexivity. Qed.

(** ** The claims about the corpus lookup *)



(** ** Worked instances of the claims with a hypothesis *)

Lemma from_request_first_matches_witness :
  InputResponse.from_request sample_db (lit "how old")
  = map fst (get_question_matches (lit "how old") (get_questions sample_db))
  /\ InputResponse.from_request sample_db (lit "weather") = [].
Proof.
  split.
  - apply (proj1 (proj2 (proj2 (proj2 (from_request_first_matches sample_db (lit "how old")))))).
    vm_compute. lia.
  - apply (proj2 (proj2 (proj2 (proj2 (from_request_first_matches sample_db (lit "weather")))))).
    intros question Hq. vm_compute in Hq.
    destruct Hq as [<-|[<-|[]]]; vm_compute; reflexivity.
Defined.

Lemma no_user_words_no_matches_witness :
  get_question_matches (lit "?! a") [lit "How are you"; lit "How old are you"] = []
  /\ InputResponse.from_request sample_db (lit "?! a") = [].
Proof.
  apply (no_user_words_no_matches sample_db (lit "?! a")).
  vm_compute. reflexivity.
Defined.

Lemma is_match_symmetric_reflexive_witness :
  is_match (lit "how") (lit "how") = true.
Proof.
  apply (proj2 is_match_symmetric_reflexive (lit "how")). discriminate.
Defined.

(** The ranking example of the specification: for the utterance "how old",
    "How old are you" scores 2, "How are you" scores 1, and the former
    ranks first although it is scanned second. *)
Example ranking_how_old :
  get_question_matches (lit "how old") [lit "How are you"; lit "How old are you"]
  = [(lit "How old are you", 2); (lit "How are you", 1)].
Proof. vm_compute. reflexivity. Qed.

(** Ties keep the scanning order. *)
Example ranking_tie :
  get_question_matches (lit "how") [lit "How are you"; lit "Nothing"; lit "How old are you"]
  = [(lit "How are you", 1); (lit "How old are you", 1)].
Proof. vm_compute. reflexivity. Qed.

(** A question word is counted once for every user word it matches. *)
Example many_to_many_count :
  get_question_matches (lit "room rooms") [lit "Room booking"] = [(lit "Room booking", 2)].
Proof. vm_compute. reflexivity. Qed.

(** ** Further properties of the tokenizer *)

Lemma space_is_not_punct (c : ascii) : isspace c = true -> is_punct c = false.
Proof.
  destruct c as [[] [] [] [] [] [] [] []]; vm_compute; intros H;
    reflexivity || discriminate H.
Qed.

Lemma str_split_from_at_space (cur s1 s2 : str) (w : ascii) :
  isspace w = true ->
  str_split_from cur (s1 ++ w :: s2) = str_split_from cur s1 ++ str_split_from [] s2.
Proof.
  intros Hw. revert cur. induction s1 as [|c s1 IH]; intros cur.
  - cbn [app str_split_from]. rewrite Hw. reflexivity.
  - cbn [app str_split_from]. destruct (isspace c).
    + rewrite IH, app_assoc. reflexivity.
    + apply IH.
Qed.

Lemma raw_words_at_space (s1 s2 : str) (w : ascii) :
  isspace w = true -> raw_words (s1 ++ w :: s2) = raw_words s1 ++ raw_words s2.
Proof.
  intros Hw. unfold raw_words, str_split.
  rewrite strip_punctuation_app, (strip_punctuation_filter (w :: s2)).
  cbn [filter]. rewrite (space_is_not_punct w Hw). cbn [negb].
  rewrite <- strip_punctuation_filter. unfold lower. rewrite map_app. cbn [map].
  apply str_split_from_at_space. rewrite isspace_lower_char. exact Hw.
Qed.

Lemma filter_all {A : Type} (p : A -> bool) (l : list A) :
  (forall x, In x l -> p x = true) -> filter p l = l.
Proof.
  induction l as [|x l IH]; intros H; [reflexivity|].
  cbn [filter]. rewrite (H x (or_introl eq_refl)), IH; [reflexivity|].
  intros y Hy. apply H. right. exact Hy.
Qed.

Lemma map_fixed {A : Type} (f : A -> A) (l : list A) :
  (forall x, In x l -> f x = x) -> map f l = l.
Proof.
  induction l as [|x l IH]; intros H; [reflexivity|].
  cbn [map]. rewrite (H x (or_introl eq_refl)), IH; [reflexivity|].
  intros y Hy. apply H. right. exact Hy.
Qed.

(** A token is a fixed point of the tokenizer. *)
Lemma split_of_token (s t : str) : In t (split s) -> split t = [t].
Proof.
  rewrite split_is_filter, filter_In. intros [Hraw Hkeep].
  pose proof (raw_words_are_words s) as Hall. rewrite Forall_forall in Hall.
  destruct (Hall t Hraw) as [Hne Hns].
  assert (Hstrip : strip_punctuation t = t).
  { rewrite strip_punctuation_filter. apply filter_all. intros c Hc.
    destruct (raw_word_chars s t c Hraw Hc) as [Hp _]. rewrite Hp. reflexivity. }
  assert (Hlow : lower t = t).
  { apply map_fixed. intros c Hc.
    destruct (raw_word_chars s t c Hraw Hc) as [_ [_ Hl]]. exact Hl. }
  rewrite split_is_filter. unfold raw_words.
  rewrite Hstrip, Hlow, (str_split_single_word t Hne Hns).
  cbn [filter]. rewrite Hkeep. reflexivity.
Qed.

Lemma split_join_tokens (s : str) (tokens : list str) :
  (forall t, In t tokens -> In t (split s)) ->
  split (join (lit " ") tokens) = tokens.
Proof.
  induction tokens as [|t tokens IH]; intros Hin.
  - reflexivity.
  - destruct tokens as [|t' tokens].
    + cbn [join]. apply (split_of_token s). apply Hin. left. reflexivity.
    + change (join (lit " ") (t :: t' :: tokens))
        with (t ++ " "%char :: join (lit " ") (t' :: tokens)).
      rewrite !split_is_filter, raw_words_at_space by reflexivity.
      rewrite filter_app, <- !split_is_filter.
      rewrite (split_of_token s t) by (apply Hin; left; reflexivity).
      rewrite IH; [reflexivity|]. intros x Hx. apply Hin. right. exact Hx.
Qed.

(** X2. A whitespace character always separates: the tokens of two texts
    joined by one are the tokens of the first followed by the tokens of the
    second. *)
Theorem split_at_whitespace (s1 s2 : str) (w : ascii) :
  isspace w = true -> split (s1 ++ w :: s2) = split s1 ++ split s2.
Proof.
  intros Hw. rewrite !split_is_filter, (raw_words_at_space s1 s2 w Hw).
  apply filter_app.
Qed.

Lemma split_at_whitespace_witness :
  split (lit "how old" ++ " "%char :: lit "are you")
  = split (lit "how old") ++ split (lit "are you").
Proof.
  apply (split_at_whitespace (lit "how old") (lit "are you") " "%char).
  reflexivity.
Defined.

(** X3. Tokenizing is idempotent: the tokens of an input, joined by single
    spaces, tokenize to themselves; in particular every token is the only
    token of itself. *)
Theorem split_join_split (s : str) :
  split (join (lit " ") (split s)) = split s
  /\ forall t, In t (split s) -> split t = [t].
Proof.
  split.
  - apply (split_join_tokens s). intros t Ht. exact Ht.
  - intros t Ht. exact (split_of_token s t Ht).
Qed.

Lemma split_join_split_witness :
  split (lit "what") = [lit "what"].
Proof.
  apply (proj2 (split_join_split (lit "What is 2+2? A: it's 4!")) (lit "what")).
  vm_compute. left. reflexivity.
Defined.

(** ** Further properties of the word test *)

Lemma pos_of_nat_succ_Z (k : nat) : Z.pos (Pos.of_nat (S k)) = Z.of_nat (S k).
Proof. lia. Qed.

(** The cutoff in whole numbers: with [d] the distance and [m] the total
    length, the similarity [1 - d / m] reaches the float 0.8 exactly when
    [5 * 2^52 * d <= (2^52 - 1) * m]. *)
Lemma ratio_reaches_cutoff_Z (a b : str) :
  0 < length a + length b ->
  ratio_reaches_cutoff a b = true
  <-> (5 * 4503599627370496 * Z.of_nat (indel_distance a b)
       <= 4503599627370495 * Z.of_nat (length a + length b))%Z.
Proof.
  unfold ratio_reaches_cutoff, indel_normalized_similarity.
  remember (indel_distance a b) as d eqn:Ed. clear Ed.
  remember (length a + length b) as m eqn:Em. clear Em.
  intros Hm. destruct m as [|k]; [lia|].
  cbn [Nat.eqb]. rewrite Qle_bool_iff.
  unfold SCORE_CUTOFF, Qle, Qminus, Qplus, Qopp. cbn [Qnum Qden].
  rewrite Pos.mul_1_l, pos_of_nat_succ_Z. lia.
Qed.

(** Words that pass the test are strictly closer than the ratio 4/5. *)
Lemma ratio_reaches_cutoff_strict (a b : str) :
  ratio_reaches_cutoff a b = true ->
  length a + length b = 0 \/ 5 * indel_distance a b < length a + length b.
Proof.
  intros Hreach. destruct (length a + length b) as [|k] eqn:Hm; [left; reflexivity|].
  right. rewrite <- Hm. apply ratio_reaches_cutoff_Z in Hreach; lia.
Qed.

Lemma ratio_reaches_cutoff_sym (a b : str) :
  ratio_reaches_cutoff a b = ratio_reaches_cutoff b a.
Proof.
  unfold ratio_reaches_cutoff. rewrite (indel_normalized_similarity_sym a b).
  reflexivity.
Qed.

Lemma ratio_reaches_cutoff_refl (a : str) : ratio_reaches_cutoff a a = true.
Proof.
  destruct a as [|c a]; [reflexivity|].
  apply ratio_reaches_cutoff_Z; [cbn [length]; lia|].
  rewrite indel_distance_refl. lia.
Qed.

Lemma lcs_no_common_char (a b : str) :
  (forall c, In c a -> ~ In c b) -> lcs a b = 0.
Proof.
  revert b. induction a as [|x a IHa]; intros b Hdisj; [reflexivity|].
  induction b as [|y b IHb]; [reflexivity|].
  rewrite lcs_cons_cons.
  destruct (Ascii.eqb x y) eqn:Hxy.
  - apply Ascii.eqb_eq in Hxy. subst y. exfalso.
    apply (Hdisj x); left; reflexivity.
  - rewrite (IHa (y :: b)), IHb; [reflexivity | |].
    + intros c Hc Hcb. apply (Hdisj c Hc). right. exact Hcb.
    + intros c Hc. apply Hdisj. right. exact Hc.
Qed.



(** X5. Words of too different lengths never match: when two words match,
    neither is more than one and a half times as long as the other. *)
Theorem is_match_similar_lengths (a b : str) :
  is_match a b = true ->
  2 * length a <= 3 * length b /\ 2 * length b <= 3 * length a.
Proof.
  rewrite is_match_iff_ratio. intros Hreach.
  apply ratio_reaches_cutoff_strict in Hreach. revert Hreach.
  unfold indel_distance. pose proof (lcs_le_lengths a b) as [Ha Hb]. lia.
Qed.

Lemma is_match_similar_lengths_witness :
  2 * length (lit "question") <= 3 * length (lit "questions")
  /\ 2 * length (lit "questions") <= 3 * length (lit "question").
Proof.
  apply (is_match_similar_lengths (lit "question") (lit "questions")).
  vm_compute. reflexivity.
Defined.

(** X6. A non-empty word never matches a word with which it has no
    character in common. *)
Theorem is_match_needs_common_char (a b : str) :
  (forall c, In c a -> ~ In c b) -> a <> [] -> is_match a b = false.
Proof.
  intros Hdisj Hne. rewrite is_match_iff_ratio.
  destruct (ratio_reaches_cutoff a b) eqn:Hreach; [exfalso | reflexivity].
  apply ratio_reaches_cutoff_strict in Hreach. revert Hreach.
  unfold indel_distance. rewrite (lcs_no_common_char a b Hdisj).
  destruct a as [|x a]; [contradiction|]. cbn [length]. lia.
Qed.

Lemma is_match_needs_common_char_witness :
  is_match (lit "how") (lit "xyz") = false.
Proof.
  apply (is_match_needs_common_char (lit "how") (lit "xyz")).
  - intros c Hc Hb. vm_compute in Hc, Hb.
    destruct Hc as [<-|[<-|[<-|[]]]];
      repeat (destruct Hb as [Hb|Hb]; [discriminate Hb|]); exact Hb.
  - discriminate.
Defined.

(** ** Further properties of the scorer *)

Section PairCounting.
Context {A : Type} (hit : A * A -> bool).

Lemma list_prod_nil_r (l : list A) : list_prod l (@nil A) = [].
Proof. induction l as [|x l IH]; [reflexivity | exact IH]. Qed.

Lemma hits_cons_l (x : A) (l1 l2 : list A) :
  length (filter hit (list_prod (x :: l1) l2))
  = length (filter (fun y => hit (x, y)) l2) + length (filter hit (list_prod l1 l2)).
Proof.
  cbn [list_prod]. rewrite filter_app, length_app, filter_map_pair, length_map.
  reflexivity.
Qed.

Lemma hits_cons_r (y : A) (l1 l2 : list A) :
  length (filter hit (list_prod l1 (y :: l2)))
  = length (filter (fun x => hit (x, y)) l1) + length (filter hit (list_prod l1 l2)).
Proof.
  induction l1 as [|x l1 IH]; [reflexivity|].
  rewrite !hits_cons_l, IH. cbn [filter].
  destruct (hit (x, y)); cbn [length]; lia.
Qed.

Lemma hits_sym (l1 l2 : list A) :
  (forall x y, hit (x, y) = hit (y, x)) ->
  length (filter hit (list_prod l1 l2)) = length (filter hit (list_prod l2 l1)).
Proof.
  intros Hsym. induction l1 as [|x l1 IH].
  - rewrite list_prod_nil_r. reflexivity.
  - rewrite hits_cons_l, hits_cons_r, IH. f_equal. f_equal.
    apply filter_ext. intros y. apply Hsym.
Qed.

Lemma hits_diagonal (l : list A) :
  (forall x, hit (x, x) = true) ->
  length l <= length (filter hit (list_prod l l)).
Proof.
  intros Hrefl.
  assert (Hgen : forall l1 l2, length l1 <= length (filter hit (list_prod l1 (l1 ++ l2)))).
  { induction l1 as [|x l1 IH]; intros l2; [cbn [length]; lia|].
    rewrite <- app_comm_cons, hits_cons_l, hits_cons_r. cbn [filter].
    rewrite Hrefl. specialize (IH l2). cbn [length]. lia. }
  specialize (Hgen l []). rewrite app_nil_r in Hgen. exact Hgen.
Qed.

Lemma hits_bound (l1 l2 : list A) :
  length (filter hit (list_prod l1 l2)) <= length l1 * length l2.
Proof. rewrite <- length_prod. apply filter_length_le. Qed.

End PairCounting.

Lemma get_question_matches_In (user_input : str) (questions : list str)
      (question : str) (n : nat) :
  In (question, n) (get_question_matches user_input questions)
  <-> In question questions /\ n = pair_count user_input question /\ 1 <= n.
Proof.
  rewrite <- scanned_matches_In, get_question_matches_scanned. split; intros H.
  - exact (Permutation_in _ (sort_reverse_perm snd _) H).
  - exact (Permutation_in _ (Permutation_sym (sort_reverse_perm snd _)) H).
Qed.

Lemma scanned_matches_questions (user_input : str) (questions : list str) :
  map fst (scanned_matches user_input questions)
  = filter (fun question => 1 <=? pair_count user_input question) questions.
Proof.
  unfold scanned_matches. induction questions as [|q qs IH]; [reflexivity|].
  cbn [map filter snd].
  destruct (1 <=? pair_count user_input q); cbn [map fst]; rewrite IH; reflexivity.
Qed.

Lemma In_firstn {A : Type} (n : nat) (l : list A) (x : A) :
  In x (firstn n l) -> In x l.
Proof.
  intros H. rewrite <- (firstn_skipn n l). apply in_or_app. left. exact H.
Qed.

Lemma NoDup_firstn {A : Type} (n : nat) (l : list A) :
  NoDup l -> NoDup (firstn n l).
Proof.
  intros H. rewrite <- (firstn_skipn n l) in H.
  exact (NoDup_app_remove_r _ _ H).
Qed.

(** X7. The count is symmetric: a question scores against an utterance what
    the utterance, taken as a question, scores against that question taken
    as the utterance. *)
Theorem pair_count_symmetric (user_input question : str) :
  pair_count user_input question = pair_count question user_input.
Proof.
  unfold pair_count, matching_pairs.
  apply (hits_sym (fun p => ratio_reaches_cutoff (fst p) (snd p))).
  intros x y. cbn [fst snd]. apply ratio_reaches_cutoff_sym.
Qed.

(** X8. A match count is at least 1 and at most the number of tokens of the
    question times the number of tokens of the utterance. *)
Theorem match_count_bounds (user_input : str) (questions : list str)
        (question : str) (n : nat) :
  In (question, n) (get_question_matches user_input questions) ->
  1 <= n <= length (split question) * length (split user_input).
Proof.
  intros Hin. apply get_question_matches_In in Hin.
  destruct Hin as [_ [-> Hpos]]. split; [exact Hpos|].
  unfold pair_count, matching_pairs. apply hits_bound.
Qed.

Lemma match_count_bounds_witness :
  1 <= 2 <= length (split (lit "How old are you")) * length (split (lit "how old")).
Proof.
  apply (match_count_bounds (lit "how old") [lit "How are you"; lit "How old are you"]
                            (lit "How old are you") 2).
  vm_compute. left. reflexivity.
Defined.

(** X9. A candidate typed word for word is always found: if the utterance
    is one of the candidates and has at least one token, it is in the result
    with a count of at least its number of tokens. *)
Theorem exact_question_is_matched (questions : list str) (question : str) :
  In question questions -> split question <> [] ->
  In (question, pair_count question question)
     (get_question_matches question questions)
  /\ length (split question) <= pair_count question question.
Proof.
  intros Hin Hne.
  assert (Hdiag : length (split question) <= pair_count question question).
  { unfold pair_count, matching_pairs. apply hits_diagonal.
    intros x. cbn [fst snd]. apply ratio_reaches_cutoff_refl. }
  split; [|exact Hdiag].
  apply get_question_matches_In. split; [exact Hin|]. split; [reflexivity|].
  destruct (split question) as [|t ts]; [contradiction|]. cbn [length] in Hdiag. lia.
Qed.

Lemma exact_question_is_matched_witness :
  In (lit "How are you", pair_count (lit "How are you") (lit "How are you"))
     (get_question_matches (lit "How are you") [lit "How old are you"; lit "How are you"])
  /\ length (split (lit "How are you"))
     <= pair_count (lit "How are you") (lit "How are you").
Proof.
  apply (exact_question_is_matched [lit "How old are you"; lit "How are you"]
                                   (lit "How are you")).
  - right. left. reflexivity.
  - vm_compute. discriminate.
Defined.

Lemma get_question_matches_perm (user_input : str) (questions : list str) :
  Permutation (map fst (get_question_matches user_input questions))
              (filter (fun question => 1 <=? pair_count user_input question) questions).
Proof.
  rewrite get_question_matches_scanned, <- scanned_matches_questions.
  apply Permutation_map, sort_reverse_perm.
Qed.

Lemma get_question_matches_distinct (user_input : str) (questions : list str) :
  NoDup questions -> NoDup (map fst (get_question_matches user_input questions)).
Proof.
  intros Hnodup.
  apply (Permutation_NoDup (Permutation_sym (get_question_matches_perm _ _))).
  apply NoDup_filter. exact Hnodup.
Qed.

(** X10. The result never has more entries than there are candidates, and it
    lists no question twice when the candidates are pairwise distinct. *)
Theorem get_question_matches_size (user_input : str) (questions : list str) :
  length (get_question_matches user_input questions) <= length questions
  /\ (NoDup questions ->
      NoDup (map fst (get_question_matches user_input questions))).
Proof.
  split.
  - rewrite <- (length_map fst).
    rewrite (Permutation_length (get_question_matches_perm user_input questions)).
    apply filter_length_le.
  - apply get_question_matches_distinct.
Qed.

Lemma get_question_matches_size_witness :
  NoDup (map fst (get_question_matches (lit "how old")
                                       [lit "How are you"; lit "How old are you"])).
Proof.
  apply (proj2 (get_question_matches_size (lit "how old")
                                          [lit "How are you"; lit "How old are you"])).
  repeat constructor; cbn [In]; intros H.
  - destruct H as [H|[]]. discriminate H.
  - exact H.
Defined.

(** ** Further properties of the match service *)

(** X11. Every question the match service returns can be answered: it is a
    stored question, and [get_answer] on it returns an answer and never
    raises. *)
Theorem from_request_answerable (db : database) (input question : str) :
  In question (InputResponse.from_request db input) ->
  In question (get_questions db)
  /\ exists answer links, get_answer db question = inr (answer, links).
Proof.
  intros Hin. unfold InputResponse.from_request in Hin. rewrite app_nil_l in Hin.
  apply in_map_iff in Hin. destruct Hin as [[q n] [Hq Hin]].
  cbn [fst] in Hq. subst q. apply In_firstn in Hin.
  apply get_question_matches_In in Hin. destruct Hin as [Hstored _].
  split; [exact Hstored|].
  rewrite get_answer_of_scalar.
  destruct (scalar_where_question db question) as [row|] eqn:Hfind.
  - exists (Question.answer row), (stored_links row). reflexivity.
  - apply scalar_where_question_none in Hfind. contradiction.
Qed.

Lemma from_request_answerable_witness :
  In (lit "How old are you") (get_questions sample_db)
  /\ exists answer links,
       get_answer sample_db (lit "How old are you") = inr (answer, links).
Proof.
  apply (from_request_answerable sample_db (lit "how old") (lit "How old are you")).
  vm_compute. left. reflexivity.
Defined.

(** X12. When the stored questions are pairwise distinct, as the [unique]
    constraint of the column demands, the match service returns no question
    twice. *)
Theorem from_request_no_duplicates (db : database) (input : str) :
  NoDup (get_questions db) -> NoDup (InputResponse.from_request db input).
Proof.
  intros Hnodup. unfold InputResponse.from_request.
  rewrite app_nil_l, <- firstn_map. apply NoDup_firstn.
  apply get_question_matches_distinct. exact Hnodup.
Qed.

Lemma from_request_no_duplicates_witness :
  NoDup (InputResponse.from_request sample_db (lit "how old")).
Proof.
  apply (from_request_no_duplicates sample_db (lit "how old")).
  vm_compute. repeat constructor; cbn [In]; intros H.
  - destruct H as [H|[]]. discriminate H.
  - exact H.
Defined.

(** ** Further properties of the corpus lookup *)

Lemma str_split_sep_nonempty (sep : ascii) (s : str) : str_split_sep sep s <> [].
Proof.
  destruct s as [|c s]; cbn [str_split_sep]; [discriminate|].
  destruct (Ascii.eqb c sep); [discriminate|].
  destruct (str_split_sep sep s); discriminate.
Qed.

Lemma join_cons_char (sep : str) (c : ascii) (field : str) (fields : list str) :
  join sep ((c :: field) :: fields) = c :: join sep (field :: fields).
Proof. destruct fields; reflexivity. Qed.

Lemma join_str_split_sep (sep : ascii) (s : str) :
  join [sep] (str_split_sep sep s) = s.
Proof.
  induction s as [|c s IH]; [reflexivity|].
  cbn [str_split_sep]. destruct (Ascii.eqb c sep) eqn:Hc.
  - apply Ascii.eqb_eq in Hc. subst c.
    destruct (str_split_sep sep s) as [|field fields] eqn:Hs.
    + exfalso. exact (str_split_sep_nonempty sep s Hs).
    + change (join [sep] ([] :: field :: fields))
        with (sep :: join [sep] (field :: fields)).
      rewrite IH. reflexivity.
  - destruct (str_split_sep sep s) as [|field fields] eqn:Hs.
    + exfalso. exact (str_split_sep_nonempty sep s Hs).
    + rewrite join_cons_char, IH. reflexivity.
Qed.

Lemma str_split_sep_no_sep (sep : ascii) (s : str) :
  Forall (fun field => ~ In sep field) (str_split_sep sep s).
Proof.
  induction s as [|c s IH]; [repeat constructor; intros []|].
  cbn [str_split_sep]. destruct (Ascii.eqb c sep) eqn:Hc.
  - constructor; [intros []|exact IH].
  - destruct (str_split_sep sep s) as [|field fields].
    + constructor; [|constructor]. intros [H|[]].
      subst c. rewrite Ascii.eqb_refl in Hc. discriminate Hc.
    + inversion IH as [|? ? Hfield Hfields]; subst.
      constructor; [|exact Hfields]. intros [H|H].
      * subst c. rewrite Ascii.eqb_refl in Hc. discriminate Hc.
      * exact (Hfield H).
Qed.

Lemma str_split_sep_length (sep : ascii) (s : str) :
  length (str_split_sep sep s) = S (count_occ ascii_dec s sep).
Proof.
  induction s as [|c s IH]; [reflexivity|].
  cbn [str_split_sep count_occ]. destruct (Ascii.eqb c sep) eqn:Hc.
  - apply Ascii.eqb_eq in Hc. subst c.
    destruct (ascii_dec sep sep) as [_|Hneq]; [|contradiction].
    cbn [length]. rewrite IH. reflexivity.
  - destruct (ascii_dec c sep) as [Heq|_].
    + subst c. rewrite Ascii.eqb_refl in Hc. discriminate Hc.
    + rewrite <- IH. destruct (str_split_sep sep s); [|reflexivity].
      exfalso. discriminate IH.
Qed.

(** X13. The picture links [get_answer] returns are the stored string cut at
    every [;]: none when the column is NULL; otherwise at least one link
    (one more than there are [;], so the empty string gives one empty link),
    no link holds a [;], and joined by [;] the links give the stored string
    back. *)
Theorem get_answer_links (db : database) (question answer : str) (links : list str) :
  get_answer db question = inr (answer, links) ->
  exists row,
    In row db /\ Question.question row = question
    /\ answer = Question.answer row
    /\ match Question.pictures_links row with
       | None => links = []
       | Some stored =>
           join (lit ";") links = stored
           /\ length links = S (count_occ ascii_dec stored ";"%char)
           /\ Forall (fun link => ~ In ";"%char link) links
       end.
Proof.
  rewrite get_answer_of_scalar.
  destruct (scalar_where_question db question) as [row|] eqn:Hfind;
    [|discriminate].
  intros Hget. injection Hget as Hanswer Hlinks.
  destruct (scalar_where_question_some _ _ _ Hfind) as [Hin Hq].
  exists row. split; [exact Hin|]. split; [exact Hq|].
  split; [symmetry; exact Hanswer|].
  unfold stored_links in Hlinks.
  destruct (Question.pictures_links row) as [stored|].
  - subst links. split; [|split].
    + apply (join_str_split_sep ";"%char).
    + apply str_split_sep_length.
    + apply str_split_sep_no_sep.
  - symmetry. exact Hlinks.
Qed.

Lemma get_answer_links_witness :
  exists row,
    In row sample_db /\ Question.question row = lit "How old are you"
    /\ lit "Old enough" = Question.answer row
    /\ match Question.pictures_links row with
       | None => [lit "age.png"; lit "cake.png"] = []
       | Some stored =>
           join (lit ";") [lit "age.png"; lit "cake.png"] = stored
           /\ length [lit "age.png"; lit "cake.png"]
              = S (count_occ ascii_dec stored ";"%char)
           /\ Forall (fun link => ~ In ";"%char link) [lit "age.png"; lit "cake.png"]
       end.
Proof.
  apply (get_answer_links sample_db (lit "How old are you")).
  vm_compute. reflexivity.
Defined.

(** ** Properties of the presentation and of the dispatch *)













(** ** Further properties of the ranking *)

Lemma StronglySorted_app_cross {A : Type} (R : A -> A -> Prop) (l1 l2 : list A) :
  StronglySorted R (l1 ++ l2) ->
  forall x y, In x l1 -> In y l2 -> R x y.
Proof.
  induction l1 as [|a l1 IH]; intros Hs x y Hx Hy; [contradiction|].
  rewrite <- app_comm_cons in Hs.
  inversion Hs as [|? ? Hrest Hall]; subst.
  destruct Hx as [<-|Hx].
  - rewrite Forall_forall in Hall. apply Hall. apply in_or_app. right. exact Hy.
  - exact (IH Hrest x y Hx Hy).
Qed.

Lemma get_question_matches_descending (user_input : str) (questions : list str) :
  StronglySorted (descending snd) (get_question_matches user_input questions).
Proof. rewrite get_question_matches_scanned. apply sort_reverse_sorted. Qed.

(** X17. An utterance made of short words only finds nothing: when no raw
    word of the utterance has more than two characters or is a number, the
    scorer returns no match and the match service no question, whatever
    is stored. *)
Theorem short_words_match_nothing (db : database) (user_input : str)
        (questions : list str) :
  (forall word, In word (raw_words user_input) -> keep_word word = false) ->
  get_question_matches user_input questions = []
  /\ InputResponse.from_request db user_input = [].
Proof.
  intros Hshort.
  assert (Hempty : split user_input = []).
  { rewrite split_is_filter.
    induction (raw_words user_input) as [|w ws IH]; [reflexivity|].
    cbn [filter]. rewrite (Hshort w (or_introl eq_refl)).
    apply IH. intros word Hword. apply Hshort. right. exact Hword. }
  assert (Hnone : forall qs, get_question_matches user_input qs = []).
  { intros qs. rewrite get_question_matches_scanned, scanned_matches_none;
      [reflexivity|].
    intros q _. apply pair_count_no_user_words. exact Hempty. }
  split; [apply Hnone|].
  unfold InputResponse.from_request. rewrite Hnone. reflexivity.
Qed.

Lemma short_words_match_nothing_witness :
  get_question_matches (lit "is it ok") [lit "Is it ok to park here"] = []
  /\ InputResponse.from_request sample_db (lit "is it ok") = [].
Proof.
  apply (short_words_match_nothing sample_db (lit "is it ok")).
  intros word Hword. vm_compute in Hword.
  destruct Hword as [<-|[<-|[<-|[]]]]; reflexivity.
Defined.

(** X18. The truncation keeps the best candidates: a question the match
    service returns scores at least as much as any stored question it does
    not return. *)
Theorem from_request_keeps_best (db : database) (input returned left_out : str) :
  In returned (InputResponse.from_request db input) ->
  In left_out (get_questions db) ->
  ~ In left_out (InputResponse.from_request db input) ->
  pair_count input left_out <= pair_count input returned.
Proof.
  unfold InputResponse.from_request. rewrite app_nil_l.
  set (ranked := get_question_matches input (get_questions db)).
  intros Hret Hstored Hout.
  apply in_map_iff in Hret. destruct Hret as [[q n] [Hq Hret]].
  cbn [fst] in Hq. subst q.
  assert (Hn : n = pair_count input returned /\ 1 <= n).
  { apply In_firstn in Hret. apply get_question_matches_In in Hret.
    destruct Hret as [_ Hn]. exact Hn. }
  destruct Hn as [Hn Hpos].
  destruct (pair_count input left_out) as [|k] eqn:Hk; [lia|].
  assert (Hin : In (left_out, S k) ranked).
  { apply get_question_matches_In. rewrite Hk.
    split; [exact Hstored|]. split; [reflexivity | lia]. }
  rewrite <- (firstn_skipn MATCHES_LIMIT ranked) in Hin.
  apply in_app_or in Hin. destruct Hin as [Hin|Hin].
  - exfalso. apply Hout. apply in_map_iff. exists (left_out, S k).
    split; [reflexivity | exact Hin].
  - pose proof (get_question_matches_descending input (get_questions db)) as Hsorted.
    fold ranked in Hsorted.
    rewrite <- (firstn_skipn MATCHES_LIMIT ranked) in Hsorted.
    pose proof (StronglySorted_app_cross _ _ _ Hsorted _ _ Hret Hin) as Hle.
    unfold descending in Hle. cbn [snd] in Hle. lia.
Qed.

Lemma from_request_keeps_best_witness :
  pair_count (lit "how old") (lit "How are you")
  <= pair_count (lit "how old") (lit "How old 9").
Proof.
  apply (from_request_keeps_best crowded_db).
  - vm_compute. do 9 right. left. reflexivity.
  - vm_compute. left. reflexivity.
  - vm_compute. intros H.
    repeat (destruct H as [H|H]; [discriminate H|]). exact H.
Defined.
